(** * n8n-nodes-clickhouse: the ClickHouse node

    A shallow embedding of [src/nodes/ClickHouse/ClickHouse.node.ts]: the
    [execute] operation (query / insert dispatch, read-only validation,
    LIMIT injection, close-then-rethrow) and the [clickhouseConnectionTest]
    credential test, together with the properties the specification states
    about them and further properties read off the code (error paths, the
    reach of the prefix and substring tests, what the operations ignore).

    Layout: JavaScript strings and the built-ins the node uses, the data
    model of the host and of the database client, a small monad for the
    client calls, the two operations, then the theorems. *)

From Stdlib Require Import ZArith List Bool Ascii String Lia DecimalString DecimalZ DecimalPos.
Import ListNotations.
Open Scope Z_scope.

(** ** JavaScript strings

    A JavaScript string is a sequence of UTF-16 code units; a code unit is a
    [Z] in the range 0..65535. *)

Definition jsstring := list Z.

(** An ASCII literal of the source, as a sequence of code units. *)
Definition str (s : string) : jsstring :=
  map (fun a => Z.of_N (N_of_ascii a)) (list_ascii_of_string s).

(** [a === b] on strings. *)
Fixpoint streq (a b : jsstring) : bool :=
  match a, b with
  | [], [] => true
  | x :: a', y :: b' => (x =? y) && streq a' b'
  | _, _ => false
  end.

(** The code points that [String.prototype.trim] strips: WhiteSpace
    (TAB, VT, FF, SP, NBSP, ZWNBSP and the category Zs) and LineTerminator
    (LF, CR, LS, PS). All are in the Basic Multilingual Plane, so the test is
    per code unit. *)
Definition isWhiteSpace (c : Z) : bool :=
  existsb (Z.eqb c)
    [0x09; 0x0A; 0x0B; 0x0C; 0x0D; 0x20; 0xA0; 0x1680;
     0x2000; 0x2001; 0x2002; 0x2003; 0x2004; 0x2005; 0x2006; 0x2007;
     0x2008; 0x2009; 0x200A; 0x2028; 0x2029; 0x202F; 0x205F; 0x3000;
     0xFEFF].

Fixpoint trimStart (s : jsstring) : jsstring :=
  match s with
  | c :: s' => if isWhiteSpace c then trimStart s' else s
  | [] => []
  end.

Definition trimEnd (s : jsstring) : jsstring := rev (trimStart (rev s)).

(** [s.trim()] *)
Definition trim (s : jsstring) : jsstring := trimEnd (trimStart s).

(** [s.startsWith(p)] *)
Fixpoint startsWith (s p : jsstring) {struct p} : bool :=
  match p, s with
  | [], _ => true
  | _ :: _, [] => false
  | a :: p', b :: s' => (a =? b) && startsWith s' p'
  end.

(** [s.includes(sub)] *)
Fixpoint includes (s sub : jsstring) : bool :=
  startsWith s sub ||
  match s with
  | [] => false
  | _ :: s' => includes s' sub
  end.

(** UTF-16: the code points of a string (a lead surrogate followed by a trail
    surrogate is one code point, any other code unit stands for itself) and
    the code units of a code point. *)
Definition isLeadSurrogate (c : Z) : bool := (0xD800 <=? c) && (c <=? 0xDBFF).
Definition isTrailSurrogate (c : Z) : bool := (0xDC00 <=? c) && (c <=? 0xDFFF).

Fixpoint codePoints (s : jsstring) : list Z :=
  match s with
  | [] => []
  | hi :: rest =>
      match rest with
      | lo :: rest' =>
          if isLeadSurrogate hi && isTrailSurrogate lo
          then (0x10000 + (hi - 0xD800) * 0x400 + (lo - 0xDC00)) :: codePoints rest'
          else hi :: codePoints rest
      | [] => [hi]
      end
  end.

Definition codeUnits (cp : Z) : jsstring :=
  if cp <? 0x10000 then [cp]
  else [0xD800 + (cp - 0x10000) / 0x400; 0xDC00 + (cp - 0x10000) mod 0x400].

(** The decimal numeral of an integer: its digits, with a minus sign for a
    negative number. *)
Definition decimalNumeral (n : Z) : jsstring :=
  str (NilZero.string_of_int (Z.to_int n)).

(** [Number.isSafeInteger(n)]: up to 2^53 - 1 in absolute value. Every such
    integer is a number of JavaScript, and is printed with all its digits. *)
Definition isSafeInteger (n : Z) : bool :=
  (- (2 ^ 53 - 1) <=? n) && (n <=? 2 ^ 53 - 1).

(** Reading a numeral back: the text as characters, and its decimal value
    (none when the text is not a decimal numeral). *)
Definition unstr (s : jsstring) : string :=
  string_of_list_ascii (map (fun c => ascii_of_N (Z.to_N c)) s).

Definition decimalValue (s : jsstring) : option Z :=
  option_map Z.of_int (NilZero.int_of_string (unstr s)).

(** ** Data model

    A row and the payload of an item are JSON objects, kept as the ordered
    list of their keys and values. *)

#[local] Set Warnings "-register-all".

Inductive Json :=
| JNull
| JBool (b : bool)
| JNumber (n : Z)
| JString (s : jsstring)
| JArray (elements : list Json)
| JObject (entries : list (jsstring * Json)).

Definition IDataObject := list (jsstring * Json).

(** The host's item: the [json] payload, and the optional [binary] part that
    the node neither reads nor writes. *)
Record INodeExecutionData := {
  json : IDataObject;
  binary : option IDataObject
}.

(** What [getCredentials('clickhouse')] and [credential.data] hold. *)
Record Credentials := {
  url : jsstring;
  database : jsstring;
  user : jsstring;
  password : jsstring
}.

Record ClickHouseClientConfigOptions := {
  cfg_host : jsstring;
  cfg_database : jsstring;
  cfg_username : jsstring;
  cfg_password : jsstring
}.

(** The [options] collection of the node; every entry may be absent. *)
Record Options := {
  schemaDescription : option jsstring;
  readOnlyMode : option bool;
  maxResults : option Z
}.

(** [IExecuteFunctions], as far as [execute] uses it: the credentials, the
    node parameters of item 0 and the input items. *)
Record IExecuteFunctions := {
  getCredentials : Credentials;
  param_operation : jsstring;
  param_query : jsstring;
  param_table : jsstring;
  param_options : Options;
  getInputData : list INodeExecutionData
}.

(** [prepareOutputData] of the host wraps the items as the node's single
    output. *)
Definition prepareOutputData (outputData : list INodeExecutionData)
  : list (list INodeExecutionData) := [outputData].

(** Errors: the node's own [NodeOperationError], and the errors of the
    client library. Both carry a message. *)
Inductive JsError :=
| NodeOperationError (msg : jsstring)
| ClientError (msg : jsstring).

Definition error_message (e : JsError) : jsstring :=
  match e with
  | NodeOperationError msg => msg
  | ClientError msg => msg
  end.

(** The outcome of an awaited computation of the node. *)
Inductive Result (A : Type) :=
| Returned (a : A)
| Thrown (e : JsError).
Arguments Returned {A} a.
Arguments Thrown {A} e.

(** The answer of the client library to one call: done, or failed with the
    message of the library's error. The library never throws the node's
    [NodeOperationError]. *)
Inductive Answer (A : Type) :=
| Done (a : A)
| Failed (msg : jsstring).
Arguments Done {A} a.
Arguments Failed {A} msg.

(** [await] of a call of the client. *)
Definition await {A} (a : Answer A) : Result A :=
  match a with
  | Done x => Returned x
  | Failed msg => Thrown (ClientError msg)
  end.

(** The requests the node sends through the client. *)
Record QueryParams := {
  qp_query : jsstring;
  qp_format : jsstring;
  qp_query_params : option IDataObject
}.

Record InsertParams := {
  ip_table : jsstring;
  ip_format : jsstring;
  ip_values : list IDataObject;
  ip_query_params : option IDataObject
}.

Inductive ClientCall :=
| Query (q : QueryParams)
| Insert (i : InsertParams)
| Close.

Definition isClose (c : ClientCall) : bool :=
  match c with Close => true | _ => false end.

Definition isRequest (c : ClientCall) : bool :=
  match c with Close => false | _ => true end.

(** A result set: what its [json()] gives when awaited. *)
Definition ResultSet := Answer (list IDataObject).

(** The database behind [@clickhouse/client]: how it answers each call of
    one invocation. Every call may fail. *)
Record Database := {
  createClient : ClickHouseClientConfigOptions -> Answer unit;
  db_query : QueryParams -> Answer ResultSet;
  db_insert : InsertParams -> Answer unit;
  db_close : Answer unit
}.

(** ** The monad of client calls

    A computation reads the database, logs the calls it makes on the client
    and returns or throws. *)

Definition Client (A : Type) : Type := Database -> list ClientCall * Result A.

Definition ret {A} (a : A) : Client A := fun _ => ([], Returned a).

Definition throw {A} (e : JsError) : Client A := fun _ => ([], Thrown e).

Definition bind {A B} (m : Client A) (k : A -> Client B) : Client B :=
  fun db =>
    match m db with
    | (t, Returned a) => let (t', r) := k a db in (t ++ t', r)
    | (t, Thrown e) => (t, Thrown e)
    end.

(** [try { m } catch (error) { handler error }] *)
Definition tryCatch {A} (m : Client A) (handler : JsError -> Client A) : Client A :=
  fun db =>
    match m db with
    | (t, Returned a) => (t, Returned a)
    | (t, Thrown e) => let (t', r) := handler e db in (t ++ t', r)
    end.

Notation "x <- m ;; k" := (bind m (fun x => k))
  (at level 61, m at next level, right associativity).
Notation "m >> k" := (bind m (fun _ => k))
  (at level 61, right associativity).

Definition newClient (config : ClickHouseClientConfigOptions) : Client unit :=
  fun db => ([], await (createClient db config)).

Definition clientQuery (q : QueryParams) : Client ResultSet :=
  fun db => ([Query q], await (db_query db q)).

Definition resultJson (result : ResultSet) : Client (list IDataObject) :=
  fun _ => ([], await result).

Definition clientInsert (i : InsertParams) : Client unit :=
  fun db => ([Insert i], await (db_insert db i)).

Definition clientClose : Client unit :=
  fun db => ([Close], await (db_close db)).

Definition calls {A} (m : Client A) (db : Database) : list ClientCall := fst (m db).
Definition outcome {A} (m : Client A) (db : Database) : Result A := snd (m db).

Definition clientConfig (credentials : Credentials) : ClickHouseClientConfigOptions :=
  {| cfg_host := url credentials;
     cfg_database := database credentials;
     cfg_username := user credentials;
     cfg_password := password credentials |}.

(** ** The credential test *)

Inductive Status := OK | Error.

Record INodeCredentialTestResult := {
  status : Status;
  message : jsstring
}.

(** The probe: [{ query: 'SELECT 1', format: 'JSONEachRow' }]. *)
Definition probe : QueryParams :=
  {| qp_query := str "SELECT 1";
     qp_format := str "JSONEachRow";
     qp_query_params := None |}.

Definition clickhouseConnectionTest (credential : Credentials)
  : Client INodeCredentialTestResult :=
  failed <-
    tryCatch
      (let config := clientConfig credential in
       newClient config >>
       clientQuery probe >>
       clientClose >>
       ret None)
      (fun error =>
         ret (Some {| status := Error; message := error_message error |})) ;;
  match failed with
  | Some result => ret result
  | None => ret {| status := OK; message := str "Connection successful!" |}
  end.

(** ** The description of the node

    Of the [description] object, what bears on [execute]: the values offered
    for the operation parameter, and the defaults declared for the entries of
    the options collection. *)

Definition operationValues : list jsstring := [str "query"; str "insert"].

Definition defaultOptions : Options :=
  {| schemaDescription := Some (str "");
     readOnlyMode := Some false;
     maxResults := Some 0 |}.

Definition orDefault {A} (entry fallback : option A) : option A :=
  match entry with
  | Some v => Some v
  | None => fallback
  end.

(** An options collection with every absent entry set to its declared
    default. *)
Definition withDefaults (o : Options) : Options :=
  {| schemaDescription := orDefault (schemaDescription o) (schemaDescription defaultOptions);
     readOnlyMode := orDefault (readOnlyMode o) (readOnlyMode defaultOptions);
     maxResults := orDefault (maxResults o) (maxResults defaultOptions) |}.

Definition setOptions (this : IExecuteFunctions) (o : Options) : IExecuteFunctions :=
  {| getCredentials := getCredentials this;
     param_operation := param_operation this;
     param_query := param_query this;
     param_table := param_table this;
     param_options := o;
     getInputData := getInputData this |}.

(** ** Sample data

    A database that answers every call, databases that fail, and node
    configurations, for running the operations on concrete inputs. *)

(** An excerpt of the Unicode upper-case table outside ASCII. *)
Definition sampleUppercase (cp : Z) : list Z :=
  if cp =? 0xDF then [83; 83]
  else if cp =? 0x131 then [73]
  else if cp =? 0x17F then [83]
  else if (0xE0 <=? cp) && (cp <=? 0xFE) && negb (cp =? 0xF7) then [cp - 32]
  else [cp].

(** The printing of 10^21, the one number beyond the safe integers that the
    examples use. *)
Definition exponentSample (n : Z) : jsstring := str "1e+21".

Definition answering (rows : list IDataObject) : Database :=
  {| createClient := fun _ => Done tt;
     db_query := fun _ => Done (Done rows);
     db_insert := fun _ => Done tt;
     db_close := Done tt |}.

Definition unreachable (msg : jsstring) : Database :=
  {| createClient := fun _ => Done tt;
     db_query := fun _ => Failed msg;
     db_insert := fun _ => Failed msg;
     db_close := Done tt |}.

Definition closeFails (rows : list IDataObject) (msg : jsstring) : Database :=
  {| createClient := fun _ => Done tt;
     db_query := fun _ => Done (Done rows);
     db_insert := fun _ => Done tt;
     db_close := Failed msg |}.

Definition unreachableCloseFails (msg msg' : jsstring) : Database :=
  {| createClient := fun _ => Done tt;
     db_query := fun _ => Failed msg;
     db_insert := fun _ => Failed msg;
     db_close := Failed msg' |}.

Definition noClient (msg : jsstring) : Database :=
  {| createClient := fun _ => Failed msg;
     db_query := fun _ => Done (Done []);
     db_insert := fun _ => Done tt;
     db_close := Done tt |}.

Definition sampleCredentials : Credentials :=
  {| url := str "http://localhost:8123";
     database := str "default";
     user := str "default";
     password := str "" |}.

Definition queryNode (sql : string) (readOnly : option bool) (max : option Z)
  : IExecuteFunctions :=
  {| getCredentials := sampleCredentials;
     param_operation := str "query";
     param_query := str sql;
     param_table := str "";
     param_options := {| schemaDescription := None;
                         readOnlyMode := readOnly;
                         maxResults := max |};
     getInputData := [] |}.

Definition insertNode (table : string) (items : list INodeExecutionData)
  : IExecuteFunctions :=
  {| getCredentials := sampleCredentials;
     param_operation := str "insert";
     param_query := str "";
     param_table := str table;
     param_options := {| schemaDescription := None;
                         readOnlyMode := None;
                         maxResults := None |};
     getInputData := items |}.

Definition otherNode (operation : string) : IExecuteFunctions :=
  {| getCredentials := sampleCredentials;
     param_operation := str operation;
     param_query := str "DROP TABLE product";
     param_table := str "product";
     param_options := {| schemaDescription := None;
                         readOnlyMode := None;
                         maxResults := None |};
     getInputData := [] |}.

Definition rowId (n : Z) : IDataObject := [(str "id", JNumber n)].

Definition product (n : Z) (name : string) : IDataObject :=
  [(str "id", JNumber n); (str "name", JString (str name))].

Definition item (payload : IDataObject) : INodeExecutionData :=
  {| json := payload; binary := None |}.

Definition productItems : list INodeExecutionData :=
  [item (product 1 "a"); item (product 2 "b")].

Section ClickHouseNode.

(** [String.prototype.toUpperCase] follows the Unicode default case
    conversion, one code point at a time and without context. On ASCII it is
    written out here; the Unicode table for the code points from 128 on is
    not part of the repository and is a parameter of the development. *)
Variable unicodeToUppercase : Z -> list Z.

(** [`${n}`] for an integer-valued number [n]. A safe integer is printed as
    its decimal numeral. Beyond the safe integers the number is a rounded
    double, printed with the shortest digits that identify it and in
    exponent notation from 10^21 on; that part of [Number::toString] is not
    written out here and is a parameter of the development. *)
Variable numberToStringBeyondSafe : Z -> jsstring.

Definition numberToString (n : Z) : jsstring :=
  if isSafeInteger n then decimalNumeral n else numberToStringBeyondSafe n.

Definition upperCodePoint (cp : Z) : list Z :=
  if (97 <=? cp) && (cp <=? 122) then [cp - 32]
  else if cp <? 128 then [cp]
  else unicodeToUppercase cp.

(** [s.toUpperCase()] *)
Definition toUpperCase (s : jsstring) : jsstring :=
  flat_map (fun cp => flat_map codeUnits (upperCodePoint cp)) (codePoints s).

(** ** The execute operation *)

Definition readOnlyError : JsError :=
  NodeOperationError
    (str "Only SELECT, SHOW, and DESCRIBE queries are allowed in read-only mode").

(** [if (readOnlyMode) { ... throw ... }] *)
Definition validateReadOnly (readOnly : bool) (query : jsstring) : Client unit :=
  if readOnly then
    let normalizedQuery := toUpperCase (trim query) in
    if negb (startsWith normalizedQuery (str "SELECT")) &&
       negb (startsWith normalizedQuery (str "SHOW")) &&
       negb (startsWith normalizedQuery (str "DESCRIBE")) &&
       negb (startsWith normalizedQuery (str "DESC"))
    then throw readOnlyError
    else ret tt
  else ret tt.

(** [if (maxResults > 0 && !query.toUpperCase().includes('LIMIT')) ...] *)
Definition addLimit (query : jsstring) (max : Z) : jsstring :=
  if (0 <? max) && negb (includes (toUpperCase query) (str "LIMIT"))
  then query ++ str " LIMIT " ++ numberToString max
  else query.

Definition queryParams : IDataObject := [].

(** The body of the [try]: it gives the value of [returnItems]. *)
Definition dispatch (this : IExecuteFunctions) : Client (list INodeExecutionData) :=
  let operation := param_operation this in
  if streq operation (str "query") then
    let query := param_query this in
    let options := param_options this in
    let readOnly := match readOnlyMode options with Some b => b | None => false end in
    let max := match maxResults options with Some n => n | None => 0 end in
    validateReadOnly readOnly query >>
    let query := addLimit query max in
    result <- clientQuery {| qp_query := query;
                             qp_format := str "JSONEachRow";
                             qp_query_params := Some queryParams |} ;;
    rows <- resultJson result ;;
    ret (map (fun row => {| json := row; binary := None |}) rows)
  else if streq operation (str "insert") then
    let items := map json (getInputData this) in
    let table := param_table this in
    clientInsert {| ip_table := table;
                    ip_format := str "JSONEachRow";
                    ip_values := items;
                    ip_query_params := Some queryParams |} >>
    ret []
  else ret [].

Definition execute (this : IExecuteFunctions)
  : Client (list (list INodeExecutionData)) :=
  let credentials := getCredentials this in
  let config := clientConfig credentials in
  newClient config >>
  returnItems <-
    tryCatch (dispatch this)
             (fun error => clientClose >> throw error) ;;
  clientClose >>
  ret (prepareOutputData returnItems).

(** ** Properties of the string built-ins *)

Lemma streq_spec (a b : jsstring) : streq a b = true <-> a = b.
Proof.
  revert b; induction a as [|x a IH]; intros [|y b]; simpl; split;
    try easy.
  - rewrite andb_true_iff, Z.eqb_eq, IH. now intros [-> ->].
  - intros [= -> ->]. now rewrite Z.eqb_refl, (proj2 (IH b)).
Qed.

Lemma streq_false (a b : jsstring) : a <> b -> streq a b = false.
Proof.
  intros Hne. destruct (streq a b) eqn:E; [|reflexivity].
  now apply streq_spec in E.
Qed.

(** [startsWith] decides "is a prefix of". *)
Lemma startsWith_spec (s p : jsstring) :
  startsWith s p = true <-> exists rest, s = p ++ rest.
Proof.
  revert s; induction p as [|a p IH]; intros s; simpl.
  - split; [intros _; now exists s | reflexivity].
  - destruct s as [|b s].
    + split; [discriminate | intros [rest [=]]].
    + rewrite andb_true_iff, Z.eqb_eq, IH. split.
      * intros [-> [rest ->]]. now exists rest.
      * intros [rest [= -> ->]]. split; [reflexivity | now exists rest].
Qed.

(** [includes] decides "is a substring of". *)
Lemma includes_spec (s sub : jsstring) :
  includes s sub = true <-> exists before after, s = before ++ sub ++ after.
Proof.
  induction s as [|c s IH]; simpl; rewrite orb_true_iff, startsWith_spec.
  - split.
    + intros [[after E] | [=]]. now exists [], after.
    + intros [[|x before] [after E]]; [left; now exists after | discriminate].
  - rewrite IH. split.
    + intros [[after E] | [before [after E]]].
      * now exists [], after.
      * exists (c :: before), after. simpl. now rewrite E.
    + intros [[|x before] [after E]].
      * left. now exists after.
      * right. injection E as -> ->. now exists before, after.
Qed.

(** On a string of ASCII code units the Unicode table plays no part:
    [toUpperCase] maps a..z to A..Z and leaves every other code unit. *)
Definition asciiUpper (c : Z) : Z :=
  if (97 <=? c) && (c <=? 122) then c - 32 else c.

Lemma codePoints_no_surrogate (s : jsstring) :
  Forall (fun c => c < 0xD800) s -> codePoints s = s.
Proof.
  induction s as [|a s IH]; intros H; [reflexivity|].
  inversion H as [|? ? Ha Hs]; subst.
  destruct s as [|b s]; [reflexivity|].
  change (codePoints (a :: b :: s))
    with (if isLeadSurrogate a && isTrailSurrogate b
          then (0x10000 + (a - 0xD800) * 0x400 + (b - 0xDC00)) :: codePoints s
          else a :: codePoints (b :: s)).
  assert (isLeadSurrogate a = false) as ->
    by (unfold isLeadSurrogate; apply andb_false_iff; left; lia).
  simpl andb. cbv iota. now rewrite (IH Hs).
Qed.

Lemma toUpperCase_ascii (s : jsstring) :
  Forall (fun c => 0 <= c < 128) s -> toUpperCase s = map asciiUpper s.
Proof.
  intros H. unfold toUpperCase. rewrite codePoints_no_surrogate.
  - induction H as [|c s Hc Hs IH]; [reflexivity|].
    simpl. rewrite IH. unfold upperCodePoint, asciiUpper.
    destruct ((97 <=? c) && (c <=? 122)) eqn:E.
    + simpl. unfold codeUnits.
      assert ((c - 32 <? 0x10000) = true) as -> by lia. reflexivity.
    + assert ((c <? 128) = true) as -> by lia. simpl. unfold codeUnits.
      assert ((c <? 0x10000) = true) as -> by lia. reflexivity.
  - eapply Forall_impl; [|exact H]. simpl. lia.
Qed.

(** ** The words of the specification *)

(** "S, after trimming whitespace and upper-casing, starts with one of the
    prefixes SELECT, SHOW, DESCRIBE, DESC". *)
Definition readOnlyKeywords : list jsstring :=
  [str "SELECT"; str "SHOW"; str "DESCRIBE"; str "DESC"].

Definition startsWithReadOnlyKeyword (S : jsstring) : Prop :=
  exists keyword rest,
    In keyword readOnlyKeywords /\ toUpperCase (trim S) = keyword ++ rest.

(** "S contains the substring LIMIT, case-insensitively": the upper-cased
    text has LIMIT as a substring. *)
Definition containsLimit (S : jsstring) : Prop :=
  exists before after, toUpperCase S = before ++ str "LIMIT" ++ after.

(** Read-only mode is enabled, and the maximum number of results, as the
    node reads them from its options. *)
Definition readOnlyEnabled (this : IExecuteFunctions) : bool :=
  match readOnlyMode (param_options this) with Some b => b | None => false end.

Definition maxResultsOf (this : IExecuteFunctions) : Z :=
  match maxResults (param_options this) with Some n => n | None => 0 end.

(** The query request and the insert request of the node. *)
Definition queryRequest (text : jsstring) : ClientCall :=
  Query {| qp_query := text;
           qp_format := str "JSONEachRow";
           qp_query_params := Some [] |}.

Definition insertRequest (table : jsstring) (rows : list IDataObject) : ClientCall :=
  Insert {| ip_table := table;
            ip_format := str "JSONEachRow";
            ip_values := rows;
            ip_query_params := Some [] |}.

(** The client was created: [createClient] did not throw. *)
Definition created (this : IExecuteFunctions) (db : Database) : Prop :=
  createClient db (clientConfig (getCredentials this)) = Done tt.

(** ** Running the validation and the LIMIT injection *)

Lemma validateReadOnly_accepts (S : jsstring) (db : Database) :
  startsWithReadOnlyKeyword S ->
  validateReadOnly true S db = ([], Returned tt).
Proof.
  intros (keyword & rest & Hin & E). unfold validateReadOnly.
  assert (Hs : startsWith (toUpperCase (trim S)) keyword = true)
    by (apply startsWith_spec; now exists rest).
  simpl in Hin.
  destruct Hin as [<- | [<- | [<- | [<- | []]]]]; rewrite Hs; simpl;
    rewrite ?andb_false_r; reflexivity.
Qed.

Lemma validateReadOnly_rejects (S : jsstring) (db : Database) :
  ~ startsWithReadOnlyKeyword S ->
  validateReadOnly true S db = ([], Thrown readOnlyError).
Proof.
  intros Hno. unfold validateReadOnly.
  assert (Hk : forall keyword, In keyword readOnlyKeywords ->
                 startsWith (toUpperCase (trim S)) keyword = false).
  { intros keyword Hin.
    destruct (startsWith (toUpperCase (trim S)) keyword) eqn:E; [|reflexivity].
    apply startsWith_spec in E. destruct E as [rest E].
    exfalso. apply Hno. now exists keyword, rest. }
  rewrite !Hk by (simpl; tauto). reflexivity.
Qed.

Lemma startsWithReadOnlyKeyword_dec (S : jsstring) :
  startsWithReadOnlyKeyword S \/ ~ startsWithReadOnlyKeyword S.
Proof.
  destruct (existsb (startsWith (toUpperCase (trim S))) readOnlyKeywords) eqn:E.
  - left. apply existsb_exists in E. destruct E as (keyword & Hin & Hs).
    apply startsWith_spec in Hs. destruct Hs as [rest Hs].
    now exists keyword, rest.
  - right. intros (keyword & rest & Hin & Hs).
    assert (existsb (startsWith (toUpperCase (trim S))) readOnlyKeywords = true).
    { apply existsb_exists. exists keyword. split; [assumption|].
      apply startsWith_spec. now exists rest. }
    congruence.
Qed.

Lemma addLimit_appends (S : jsstring) (N : Z) :
  0 < N -> ~ containsLimit S ->
  addLimit S N = S ++ str " LIMIT " ++ numberToString N.
Proof.
  intros HN Hno. unfold addLimit.
  assert (includes (toUpperCase S) (str "LIMIT") = false) as ->.
  { destruct (includes (toUpperCase S) (str "LIMIT")) eqn:E; [|reflexivity].
    apply includes_spec in E. contradiction. }
  now rewrite (proj2 (Z.ltb_lt 0 N) HN).
Qed.

Lemma addLimit_unchanged (S : jsstring) (N : Z) :
  N <= 0 \/ containsLimit S -> addLimit S N = S.
Proof.
  intros [HN | Hc]; unfold addLimit.
  - now rewrite (proj2 (Z.ltb_ge 0 N) HN).
  - apply includes_spec in Hc. rewrite Hc. now rewrite andb_false_r.
Qed.

(** ** Running the dispatch and the close *)

(** With the client created, [execute] runs the dispatch, closes the client
    once, and then returns the items or rethrows; an error of the close
    takes the place of either. *)
Lemma execute_run (this : IExecuteFunctions) (db : Database) :
  created this db ->
  execute this db =
    (calls (dispatch this) db ++ [Close],
     match db_close db, outcome (dispatch this) db with
     | Failed msg, _ => Thrown (ClientError msg)
     | Done _, Returned returnItems => Returned [returnItems]
     | Done _, Thrown e => Thrown e
     end).
Proof.
  unfold created, execute, calls, outcome, bind, tryCatch, newClient,
    clientClose, throw, ret, prepareOutputData.
  intros ->. simpl.
  destruct (dispatch this db) as [t [returnItems | e]];
    destruct (db_close db); simpl; rewrite ?app_nil_r; reflexivity.
Qed.

Lemma execute_calls (this : IExecuteFunctions) (db : Database) :
  created this db ->
  calls (execute this) db = calls (dispatch this) db ++ [Close].
Proof.
  intros H. unfold calls at 1. now rewrite (execute_run _ _ H).
Qed.

Lemma execute_outcome (this : IExecuteFunctions) (db : Database) :
  created this db ->
  outcome (execute this) db =
    match db_close db, outcome (dispatch this) db with
    | Failed msg, _ => Thrown (ClientError msg)
    | Done _, Returned returnItems => Returned [returnItems]
    | Done _, Thrown e => Thrown e
    end.
Proof.
  intros H. unfold outcome at 1. now rewrite (execute_run _ _ H).
Qed.

Lemma dispatch_query (this : IExecuteFunctions) (db : Database) :
  param_operation this = str "query" ->
  dispatch this db =
    match validateReadOnly (readOnlyEnabled this) (param_query this) db with
    | (_, Thrown e) => ([], Thrown e)
    | (_, Returned _) =>
        let text := addLimit (param_query this) (maxResultsOf this) in
        ([queryRequest text],
         match db_query db {| qp_query := text;
                              qp_format := str "JSONEachRow";
                              qp_query_params := Some [] |} with
         | Done (Done rows) =>
             Returned (map (fun row => {| json := row; binary := None |}) rows)
         | Done (Failed msg) => Thrown (ClientError msg)
         | Failed msg => Thrown (ClientError msg)
         end)
    end.
Proof.
  intros Hop. unfold dispatch. rewrite Hop. simpl streq. cbv iota.
  unfold bind, readOnlyEnabled, maxResultsOf, queryRequest, clientQuery,
    resultJson, ret, queryParams.
  unfold validateReadOnly.
  destruct (match readOnlyMode (param_options this) with
            | Some b => b | None => false end); [|simpl].
  - match goal with |- context [if ?c then throw _ else ret _] =>
      destruct c end; unfold throw, ret; simpl; [reflexivity|].
    destruct (db_query db _) as [[rows | msg] | msg]; reflexivity.
  - destruct (db_query db _) as [[rows | msg] | msg]; reflexivity.
Qed.

Lemma dispatch_insert (this : IExecuteFunctions) (db : Database) :
  param_operation this = str "insert" ->
  dispatch this db =
    ([insertRequest (param_table this) (map json (getInputData this))],
     match db_insert db {| ip_table := param_table this;
                           ip_format := str "JSONEachRow";
                           ip_values := map json (getInputData this);
                           ip_query_params := Some [] |} with
     | Done _ => Returned []
     | Failed msg => Thrown (ClientError msg)
     end).
Proof.
  intros Hop. unfold dispatch. rewrite Hop. simpl streq. cbv iota.
  unfold bind, clientInsert, insertRequest, ret, queryParams. simpl.
  destruct (db_insert db _); reflexivity.
Qed.

Lemma dispatch_other (this : IExecuteFunctions) (db : Database) :
  param_operation this <> str "query" ->
  param_operation this <> str "insert" ->
  dispatch this db = ([], Returned []).
Proof.
  intros Hq Hi. unfold dispatch.
  now rewrite (streq_false _ _ Hq), (streq_false _ _ Hi).
Qed.

(** The dispatch itself never closes the client. *)
Lemma dispatch_never_closes (this : IExecuteFunctions) (db : Database) :
  filter isClose (calls (dispatch this) db) = [].
Proof.
  unfold calls.
  destruct (streq (param_operation this) (str "query")) eqn:Eq.
  - apply streq_spec in Eq. rewrite (dispatch_query _ _ Eq).
    destruct (validateReadOnly _ _ db) as [t [u | e]]; reflexivity.
  - destruct (streq (param_operation this) (str "insert")) eqn:Ei.
    + apply streq_spec in Ei. now rewrite (dispatch_insert _ _ Ei).
    + unfold dispatch. now rewrite Eq, Ei.
Qed.

(** ** The properties of the specification *)

(** C1. With operation = query and read-only mode enabled, the validation
    throws its error exactly when the query, trimmed and upper-cased, starts
    with none of SELECT, SHOW, DESCRIBE, DESC; [execute] then raises that
    error to the host (after a close that succeeds) and sends nothing to the
    database. When the query does start with one of them it is sent, as it is
    or with the LIMIT clause appended. *)
Theorem readOnly_validation (this : IExecuteFunctions) (db : Database) :
  param_operation this = str "query" ->
  readOnlyMode (param_options this) = Some true ->
  created this db ->
  let S := param_query this in
  (outcome (dispatch this) db = Thrown readOnlyError <->
     ~ startsWithReadOnlyKeyword S)
  /\ (db_close db = Done tt ->
      (outcome (execute this) db = Thrown readOnlyError <->
         ~ startsWithReadOnlyKeyword S))
  /\ (~ startsWithReadOnlyKeyword S -> calls (execute this) db = [Close])
  /\ (startsWithReadOnlyKeyword S ->
      exists text,
        calls (execute this) db = [queryRequest text; Close] /\
        (text = S \/
         text = S ++ str " LIMIT " ++ numberToString (maxResultsOf this))).
Proof.
  intros Hop Hro Hcreated S.
  assert (Hen : readOnlyEnabled this = true)
    by (unfold readOnlyEnabled; now rewrite Hro).
  assert (Hbody : outcome (dispatch this) db = Thrown readOnlyError <->
                  ~ startsWithReadOnlyKeyword S).
  { unfold outcome. rewrite (dispatch_query _ _ Hop), Hen. fold S.
    destruct (startsWithReadOnlyKeyword_dec S) as [Hyes | Hno].
    - rewrite (validateReadOnly_accepts _ db Hyes). simpl.
      split; [|intros Hno; contradiction].
      destruct (db_query db _) as [[rows | msg] | msg]; discriminate.
    - rewrite (validateReadOnly_rejects _ db Hno). simpl. tauto. }
  split; [exact Hbody|]. split; [|split].
  - intros Hclose. rewrite (execute_outcome _ _ Hcreated), Hclose, <- Hbody.
    destruct (outcome (dispatch this) db) as [returnItems | e]; simpl;
      [split; discriminate | split; intros [= ->]; reflexivity].
  - intros Hno. rewrite (execute_calls _ _ Hcreated). unfold calls.
    rewrite (dispatch_query _ _ Hop), Hen. fold S.
    now rewrite (validateReadOnly_rejects _ db Hno).
  - intros Hyes. rewrite (execute_calls _ _ Hcreated). unfold calls.
    rewrite (dispatch_query _ _ Hop), Hen. fold S.
    rewrite (validateReadOnly_accepts _ db Hyes). simpl.
    eexists. split; [reflexivity|].
    unfold addLimit. destruct (_ && _); [right | left]; reflexivity.
Qed.

(** C3. Once the client is created, every run of [execute] (success,
    validation failure, failure of the database) calls close exactly once,
    as its last call on the client. *)
Theorem connection_closed_once (this : IExecuteFunctions) (db : Database) :
  created this db ->
  (exists before,
     calls (execute this) db = before ++ [Close] /\
     filter isClose before = [])
  /\ List.length (filter isClose (calls (execute this) db)) = 1%nat.
Proof.
  intros Hcreated. rewrite (execute_calls _ _ Hcreated). split.
  - exists (calls (dispatch this) db). split; [reflexivity|].
    apply dispatch_never_closes.
  - now rewrite filter_app, dispatch_never_closes.
Qed.

(** C4. The insert operation sends the JSON payloads of all input items, in
    input order, in one insert call to the named table, and produces no
    output item. *)
Theorem insert_single_bulk_call (this : IExecuteFunctions) (db : Database) :
  param_operation this = str "insert" ->
  created this db ->
  calls (execute this) db =
    [insertRequest (param_table this) (map json (getInputData this)); Close]
  /\ (forall output, outcome (execute this) db = Returned output ->
        output = [[]])
  /\ (db_insert db {| ip_table := param_table this;
                      ip_format := str "JSONEachRow";
                      ip_values := map json (getInputData this);
                      ip_query_params := Some [] |} = Done tt ->
      db_close db = Done tt ->
      outcome (execute this) db = Returned [[]]).
Proof.
  intros Hop Hcreated.
  rewrite (execute_calls _ _ Hcreated), (execute_outcome _ _ Hcreated).
  unfold calls, outcome.
  rewrite (dispatch_insert _ _ Hop). simpl. split; [reflexivity|]. split.
  - intros output.
    destruct (db_close db); [|discriminate].
    destruct (db_insert db _); [|discriminate]. now intros [= <-].
  - now intros -> ->.
Qed.

(** C5, amended. An insert that succeeds returns one output with no item,
    whatever the input items are; the input list is not echoed, unless it is
    empty itself. *)
Theorem insert_returns_no_items (this : IExecuteFunctions) (db : Database) :
  param_operation this = str "insert" ->
  created this db ->
  db_insert db {| ip_table := param_table this;
                  ip_format := str "JSONEachRow";
                  ip_values := map json (getInputData this);
                  ip_query_params := Some [] |} = Done tt ->
  db_close db = Done tt ->
  outcome (execute this) db = Returned [[]]
  /\ (outcome (execute this) db = Returned (prepareOutputData (getInputData this))
      <-> getInputData this = []).
Proof.
  intros Hop Hcreated Hins Hclose.
  assert (E : outcome (execute this) db = Returned [[]]).
  { rewrite (execute_outcome _ _ Hcreated). unfold outcome.
    rewrite (dispatch_insert _ _ Hop), Hins, Hclose. reflexivity. }
  rewrite E. split; [reflexivity|]. unfold prepareOutputData. split.
  - now intros [= <-].
  - now intros ->.
Qed.

(** C6. When the database returns rows for the query, the query branch
    produces one item per row, in the order of the rows, whose payload is
    that row; these items are the output of [execute] (after the close). *)
Theorem query_rows_to_items (this : IExecuteFunctions) (db : Database)
    (rows : list IDataObject) :
  param_operation this = str "query" ->
  created this db ->
  (readOnlyEnabled this = true -> startsWithReadOnlyKeyword (param_query this)) ->
  db_query db {| qp_query := addLimit (param_query this) (maxResultsOf this);
                 qp_format := str "JSONEachRow";
                 qp_query_params := Some [] |} = Done (Done rows) ->
  exists items,
    outcome (dispatch this) db = Returned items /\
    map json items = rows /\
    List.length items = List.length rows /\
    (db_close db = Done tt ->
     outcome (execute this) db = Returned [items]).
Proof.
  intros Hop Hcreated Hvalid Hrows.
  exists (map (fun row => {| json := row; binary := None |}) rows).
  assert (Hbody : outcome (dispatch this) db =
                  Returned (map (fun row => {| json := row; binary := None |}) rows)).
  { unfold outcome. rewrite (dispatch_query _ _ Hop).
    destruct (readOnlyEnabled this) eqn:Hen.
    - rewrite (validateReadOnly_accepts _ db (Hvalid eq_refl)). simpl.
      now rewrite Hrows.
    - simpl. now rewrite Hrows. }
  split; [exact Hbody|]. split; [|split].
  - rewrite map_map. simpl. apply map_id.
  - apply length_map.
  - intros Hclose. now rewrite (execute_outcome _ _ Hcreated), Hclose, Hbody.
Qed.

(** C7, amended. The credential test never throws. It returns OK when
    creating the client, the SELECT 1 probe and the close all succeed, and
    otherwise Error with the message of the first step that failed, whatever
    that message is. *)
Theorem credential_test_status (credential : Credentials) (db : Database) :
  outcome (clickhouseConnectionTest credential) db =
    Returned
      match createClient db (clientConfig credential) with
      | Failed msg => {| status := Error; message := msg |}
      | Done _ =>
          match db_query db probe with
          | Failed msg => {| status := Error; message := msg |}
          | Done _ =>
              match db_close db with
              | Failed msg => {| status := Error; message := msg |}
              | Done _ => {| status := OK;
                             message := str "Connection successful!" |}
              end
          end
      end.
Proof.
  unfold outcome, clickhouseConnectionTest, bind, tryCatch, newClient,
    clientQuery, clientClose, ret. simpl.
  destruct (createClient db _); [|reflexivity]. simpl.
  destruct (db_query db probe); [|reflexivity]. simpl.
  destruct (db_close db); reflexivity.
Qed.

(** C8, amended. When the client is created and the SELECT 1 probe succeeds,
    the credential test closes the connection exactly once before it
    returns; an error of that close is not thrown to the caller but caught,
    and reported as status Error with the message of the close error. *)
Theorem credential_test_close (credential : Credentials) (db : Database)
    (result : ResultSet) :
  createClient db (clientConfig credential) = Done tt ->
  db_query db probe = Done result ->
  calls (clickhouseConnectionTest credential) db = [Query probe; Close]
  /\ outcome (clickhouseConnectionTest credential) db =
       Returned
         match db_close db with
         | Done _ => {| status := OK; message := str "Connection successful!" |}
         | Failed msg => {| status := Error; message := msg |}
         end.
Proof.
  intros Hcreated Hprobe.
  unfold calls, outcome, clickhouseConnectionTest, bind, tryCatch, newClient,
    clientQuery, clientClose, ret. simpl.
  rewrite Hcreated. simpl. rewrite Hprobe. simpl.
  destruct (db_close db); split; reflexivity.
Qed.

(** C9. For an operation that is neither "query" nor "insert", [execute]
    sends no request to the database, closes the client, and returns one
    empty output rather than an error. *)
Theorem unknown_operation_noop (this : IExecuteFunctions) (db : Database) :
  param_operation this <> str "query" ->
  param_operation this <> str "insert" ->
  created this db ->
  calls (execute this) db = [Close]
  /\ filter isRequest (calls (execute this) db) = []
  /\ outcome (dispatch this) db = Returned []
  /\ (db_close db = Done tt -> outcome (execute this) db = Returned [[]]).
Proof.
  intros Hq Hi Hcreated.
  rewrite (execute_calls _ _ Hcreated), (execute_outcome _ _ Hcreated).
  unfold calls, outcome.
  rewrite (dispatch_other _ _ Hq Hi). simpl.
  repeat split. now intros ->.
Qed.

(** C10. When the query or insert branch throws and the close in the error
    path throws as well, the error of the close is the one [execute] raises;
    the error of the branch is lost. *)
Theorem close_error_replaces_execution_error
    (this : IExecuteFunctions) (db : Database) (e : JsError) (msg : jsstring) :
  created this db ->
  outcome (dispatch this) db = Thrown e ->
  db_close db = Failed msg ->
  (param_operation this = str "query" \/ param_operation this = str "insert")
  /\ outcome (execute this) db = Thrown (ClientError msg).
Proof.
  intros Hcreated Hbody Hclose. split.
  - destruct (streq (param_operation this) (str "query")) eqn:Eq;
      [left; now apply streq_spec|].
    destruct (streq (param_operation this) (str "insert")) eqn:Ei;
      [right; now apply streq_spec|].
    exfalso. revert Hbody. unfold outcome, dispatch. now rewrite Eq, Ei.
  - rewrite (execute_outcome _ _ Hcreated). now rewrite Hclose.
Qed.

(** ** Further properties: the string built-ins *)

(** A string of whitespace only, and a string of ASCII letters and of the
    few signs between them (code units 65 to 122). *)
Definition whitespace (s : jsstring) : Prop :=
  Forall (fun c => isWhiteSpace c = true) s.

Definition letters (s : jsstring) : Prop :=
  Forall (fun c => 65 <= c <= 122) s.

Lemma letter_not_whitespace (c : Z) : 65 <= c <= 122 -> isWhiteSpace c = false.
Proof.
  intros H. unfold isWhiteSpace. simpl.
  repeat (rewrite (proj2 (Z.eqb_neq c _)) by lia; simpl). reflexivity.
Qed.

Lemma trimStart_split (s : jsstring) :
  exists ws, s = ws ++ trimStart s /\ whitespace ws.
Proof.
  induction s as [|c s (ws & E & Hws)];
    [exists []; split; [reflexivity | constructor]|].
  simpl. destruct (isWhiteSpace c) eqn:Hc.
  - exists (c :: ws). split; [simpl; now rewrite <- E | now constructor].
  - exists []. split; [reflexivity | constructor].
Qed.

Lemma trimStart_whitespace_app (ws s : jsstring) :
  whitespace ws -> trimStart (ws ++ s) = trimStart s.
Proof.
  induction 1 as [|c ws Hc _ IH]; [reflexivity|]. simpl. now rewrite Hc.
Qed.

Lemma trimStart_keeps (c : Z) (s : jsstring) :
  isWhiteSpace c = false -> trimStart (c :: s) = c :: s.
Proof. intros H. simpl. now rewrite H. Qed.

Lemma trimEnd_split (s : jsstring) :
  exists ws, s = trimEnd s ++ ws /\ whitespace ws.
Proof.
  destruct (trimStart_split (rev s)) as (ws & E & Hws).
  exists (rev ws). split.
  - unfold trimEnd. rewrite <- rev_app_distr, <- E. now rewrite rev_involutive.
  - apply Forall_rev. exact Hws.
Qed.

(** The text trimmed is the middle of the text: only whitespace is cut, at
    both ends. *)
Lemma trim_split (S : jsstring) :
  exists before after,
    S = before ++ trim S ++ after /\ whitespace before /\ whitespace after.
Proof.
  destruct (trimStart_split S) as (before & E1 & H1).
  destruct (trimEnd_split (trimStart S)) as (after & E2 & H2).
  exists before, after. unfold trim. now rewrite <- E2.
Qed.

Lemma trim_whitespace (S : jsstring) : whitespace S -> trim S = [].
Proof.
  intros H. unfold trim.
  rewrite <- (app_nil_r S), (trimStart_whitespace_app S [] H). reflexivity.
Qed.

Lemma prefix_before_whitespace (a b c ws : jsstring) :
  a ++ b = c ++ ws -> letters a -> whitespace ws -> exists r, c = a ++ r.
Proof.
  intros E Ha Hws. revert c E.
  induction Ha as [|x a Hx _ IH]; intros c E; [now exists c|].
  destruct c as [|y c].
  - simpl in E. subst ws. inversion Hws as [|? ? Hy _]; subst.
    rewrite (letter_not_whitespace x Hx) in Hy. discriminate.
  - simpl in E. injection E as <- E.
    destruct (IH c E) as [r ->]. now exists r.
Qed.

(** Trimming keeps a word of letters that follows the leading whitespace. *)
Lemma trim_keeps_word (ws word rest : jsstring) :
  whitespace ws -> letters word -> word <> [] ->
  exists rest', trim (ws ++ word ++ rest) = word ++ rest'.
Proof.
  intros Hws Hword Hne. unfold trim.
  rewrite (trimStart_whitespace_app ws _ Hws).
  destruct word as [|c word]; [contradiction|].
  inversion Hword as [|? ? Hc Hw]; subst.
  simpl app. rewrite (trimStart_keeps c _ (letter_not_whitespace c Hc)).
  destruct (trimEnd_split (c :: word ++ rest)) as (after & E & Hafter).
  apply (prefix_before_whitespace (c :: word) rest _ after); assumption.
Qed.

Lemma codePoints_letters_app (a b : jsstring) :
  letters a -> codePoints (a ++ b) = a ++ codePoints b.
Proof.
  induction 1 as [|x a Hx _ IH]; [reflexivity|].
  simpl app. destruct (a ++ b) as [|y t] eqn:E.
  - destruct a; [|discriminate]. simpl in E. now subst b.
  - change (codePoints (x :: y :: t))
      with (if isLeadSurrogate x && isTrailSurrogate y
            then (0x10000 + (x - 0xD800) * 0x400 + (y - 0xDC00)) :: codePoints t
            else x :: codePoints (y :: t)).
    assert (isLeadSurrogate x = false) as ->
      by (unfold isLeadSurrogate; apply andb_false_iff; left; lia).
    simpl andb. cbv iota. now rewrite IH.
Qed.

(** Two-step induction on a list, as [codePoints] recurses. *)
Lemma list_pairs_ind (A : Type) (P : list A -> Prop) :
  P [] -> (forall x, P [x]) ->
  (forall x y l, P l -> P (y :: l) -> P (x :: y :: l)) ->
  forall l, P l.
Proof.
  intros H0 H1 H2 l.
  assert (H : P l /\ forall x, P (x :: l)); [|exact (proj1 H)].
  induction l as [|y l [IH IH']]; split; auto.
Qed.

(** The code points of a text split where the second part does not begin
    with a trail surrogate. *)
Lemma codePoints_app (a b : jsstring) :
  match b with [] => True | x :: _ => isTrailSurrogate x = false end ->
  codePoints (a ++ b) = codePoints a ++ codePoints b.
Proof.
  intros Hb. induction a as [| x | x y l IHl IHyl] using list_pairs_ind.
  - reflexivity.
  - destruct b as [|z b]; [reflexivity|].
    change (codePoints ([x] ++ z :: b))
      with (if isLeadSurrogate x && isTrailSurrogate z
            then (0x10000 + (x - 0xD800) * 0x400 + (z - 0xDC00)) :: codePoints b
            else x :: codePoints (z :: b)).
    now rewrite Hb, andb_false_r.
  - change (codePoints ((x :: y :: l) ++ b))
      with (if isLeadSurrogate x && isTrailSurrogate y
            then (0x10000 + (x - 0xD800) * 0x400 + (y - 0xDC00))
                 :: codePoints (l ++ b)
            else x :: codePoints ((y :: l) ++ b)).
    change (codePoints (x :: y :: l))
      with (if isLeadSurrogate x && isTrailSurrogate y
            then (0x10000 + (x - 0xD800) * 0x400 + (y - 0xDC00)) :: codePoints l
            else x :: codePoints (y :: l)).
    destruct (isLeadSurrogate x && isTrailSurrogate y);
      [rewrite IHl | rewrite IHyl]; reflexivity.
Qed.

Lemma toUpperCase_letters (word : jsstring) :
  letters word -> toUpperCase word = map asciiUpper word.
Proof.
  intros H. apply toUpperCase_ascii.
  eapply Forall_impl; [|exact H]. simpl. lia.
Qed.

(** Upper-casing a text around a word of letters: the word is upper-cased
    on its own, whatever surrounds it. *)
Lemma toUpperCase_around_word (a word b : jsstring) :
  letters word -> word <> [] ->
  toUpperCase (a ++ word ++ b)
  = toUpperCase a ++ map asciiUpper word ++ toUpperCase b.
Proof.
  intros Hw Hne. unfold toUpperCase at 1.
  rewrite codePoints_app.
  - rewrite flat_map_app. f_equal.
    rewrite (codePoints_letters_app word b Hw), flat_map_app. f_equal.
    rewrite <- (toUpperCase_letters word Hw). unfold toUpperCase.
    rewrite <- (app_nil_r word) at 2.
    now rewrite (codePoints_letters_app word [] Hw), app_nil_r.
  - destruct word as [|c word]; [contradiction|].
    inversion Hw; subst. simpl.
    unfold isTrailSurrogate. apply andb_false_iff. left. lia.
Qed.

(** A word that is a keyword up to the case of its letters is a word of
    letters. *)
Definition capitals (K : jsstring) : Prop := Forall (fun c => 65 <= c <= 90) K.

Lemma case_variant_letters (word K : jsstring) :
  map asciiUpper word = K -> capitals K -> letters word.
Proof.
  intros <- H. induction word as [|c word IH]; [constructor|].
  inversion H as [|? ? Hc Hw]; subst. constructor; [|now apply IH].
  unfold asciiUpper in Hc.
  destruct ((97 <=? c) && (c <=? 122)) eqn:E; lia.
Qed.

Lemma readOnlyKeywords_capitals (K : jsstring) :
  In K readOnlyKeywords -> capitals K /\ K <> [].
Proof.
  intros [<- | [<- | [<- | [<- | []]]]]; split; try discriminate;
    repeat constructor; simpl; lia.
Qed.

(** ** Further properties: running the operations *)

Lemma execute_not_created (this : IExecuteFunctions) (db : Database)
    (msg : jsstring) :
  createClient db (clientConfig (getCredentials this)) = Failed msg ->
  execute this db = ([], Thrown (ClientError msg)).
Proof.
  intros H. unfold execute, bind, newClient. now rewrite H.
Qed.

Lemma created_or_not (this : IExecuteFunctions) (db : Database) :
  created this db \/
  exists msg, createClient db (clientConfig (getCredentials this)) = Failed msg.
Proof.
  unfold created.
  destruct (createClient db _) as [[] | msg]; [now left | right; now exists msg].
Qed.

(** The query branch, once the validation lets the query through. *)
Lemma dispatch_query_valid (this : IExecuteFunctions) (db : Database) :
  param_operation this = str "query" ->
  (readOnlyEnabled this = true -> startsWithReadOnlyKeyword (param_query this)) ->
  dispatch this db =
    (let text := addLimit (param_query this) (maxResultsOf this) in
     ([queryRequest text],
      match db_query db {| qp_query := text;
                           qp_format := str "JSONEachRow";
                           qp_query_params := Some [] |} with
      | Done (Done rows) =>
          Returned (map (fun row => {| json := row; binary := None |}) rows)
      | Done (Failed msg) => Thrown (ClientError msg)
      | Failed msg => Thrown (ClientError msg)
      end)).
Proof.
  intros Hop Hvalid. rewrite (dispatch_query _ _ Hop).
  destruct (readOnlyEnabled this).
  - now rewrite (validateReadOnly_accepts _ db (Hvalid eq_refl)).
  - reflexivity.
Qed.

(** The query branch, when the validation stops the query. *)
Lemma dispatch_query_invalid (this : IExecuteFunctions) (db : Database) :
  param_operation this = str "query" ->
  readOnlyEnabled this = true ->
  ~ startsWithReadOnlyKeyword (param_query this) ->
  dispatch this db = ([], Thrown readOnlyError).
Proof.
  intros Hop Hen Hno. rewrite (dispatch_query _ _ Hop), Hen.
  now rewrite (validateReadOnly_rejects _ db Hno).
Qed.

Lemma query_valid_or_not (this : IExecuteFunctions) :
  (readOnlyEnabled this = true -> startsWithReadOnlyKeyword (param_query this))
  \/ (readOnlyEnabled this = true /\
      ~ startsWithReadOnlyKeyword (param_query this)).
Proof.
  destruct (readOnlyEnabled this); [|left; discriminate].
  destruct (startsWithReadOnlyKeyword_dec (param_query this));
    [left | right]; auto.
Qed.

Lemma operation_cases (this : IExecuteFunctions) :
  param_operation this = str "query" \/
  param_operation this = str "insert" \/
  (param_operation this <> str "query" /\
   param_operation this <> str "insert").
Proof.
  destruct (streq (param_operation this) (str "query")) eqn:Eq;
    [left; now apply streq_spec|].
  destruct (streq (param_operation this) (str "insert")) eqn:Ei;
    [right; left; now apply streq_spec|].
  right; right. split; intros H; apply streq_spec in H; congruence.
Qed.

(** [execute] depends on the node only through its credentials and its
    dispatch. *)
Lemma execute_same_dispatch (this this' : IExecuteFunctions) (db : Database) :
  getCredentials this = getCredentials this' ->
  dispatch this db = dispatch this' db ->
  execute this db = execute this' db.
Proof.
  intros Hc Hd. unfold execute, bind, tryCatch. now rewrite Hc, Hd.
Qed.

Lemma includes_around (a word b : jsstring) :
  includes (a ++ word ++ b) word = true.
Proof. apply includes_spec. now exists a, b. Qed.

(** After the injection with a positive maximum, the text has LIMIT in it. *)
Lemma addLimit_contains (S : jsstring) (N : Z) :
  0 < N -> includes (toUpperCase (addLimit S N)) (str "LIMIT") = true.
Proof.
  intros HN. unfold addLimit.
  destruct (includes (toUpperCase S) (str "LIMIT")) eqn:E.
  - now rewrite andb_false_r.
  - rewrite (proj2 (Z.ltb_lt 0 N) HN). simpl andb. cbv iota.
    change (S ++ str " LIMIT " ++ numberToString N)
      with (S ++ [32] ++ str "LIMIT" ++ ([32] ++ numberToString N)).
    rewrite app_assoc.
    rewrite (toUpperCase_around_word (S ++ [32]) (str "LIMIT"));
      [| repeat constructor; simpl; lia | discriminate].
    apply includes_around.
Qed.

(** ** Further properties of the node *)

(** X1. The only error of its own that [execute] raises is the read-only
    validation error: it is raised only for operation query with read-only
    mode on and a query that starts with none of the keywords, it carries
    the fixed message, and the database has then received no request. *)
Theorem validation_error_only_in_read_only_query
    (this : IExecuteFunctions) (db : Database) (msg : jsstring) :
  outcome (execute this) db = Thrown (NodeOperationError msg) ->
  param_operation this = str "query"
  /\ readOnlyEnabled this = true
  /\ ~ startsWithReadOnlyKeyword (param_query this)
  /\ NodeOperationError msg = readOnlyError
  /\ calls (execute this) db = [Close].
Proof.
  intros H.
  destruct (created_or_not this db) as [Hcreated | [m Hm]];
    [|unfold outcome in H; rewrite (execute_not_created _ _ _ Hm) in H;
      discriminate].
  rewrite (execute_outcome _ _ Hcreated) in H.
  rewrite (execute_calls _ _ Hcreated).
  destruct (db_close db) as [[] | m]; [|discriminate].
  unfold outcome, calls in *.
  destruct (operation_cases this) as [Hq | [Hi | [Hq Hi]]].
  - destruct (query_valid_or_not this) as [Hvalid | [Hen Hno]].
    + rewrite (dispatch_query_valid _ _ Hq Hvalid) in H. simpl in H.
      destruct (db_query db _) as [[rows | m] | m]; discriminate.
    + rewrite (dispatch_query_invalid _ _ Hq Hen Hno) in *. simpl in *.
      repeat split; auto. congruence.
  - rewrite (dispatch_insert _ _ Hi) in H. simpl in H.
    destruct (db_insert db _); discriminate.
  - rewrite (dispatch_other _ _ Hq Hi) in H. discriminate.
Qed.

(** X2. One invocation sends at most one request to the database, even when
    that request fails: there is no retry and no chunking. A query is sent
    only for operation query, an insert only for operation insert. *)
Theorem at_most_one_request (this : IExecuteFunctions) (db : Database) :
  (List.length (filter isRequest (calls (execute this) db)) <= 1)%nat
  /\ (forall q, In (Query q) (calls (execute this) db) ->
        param_operation this = str "query")
  /\ (forall i, In (Insert i) (calls (execute this) db) ->
        param_operation this = str "insert").
Proof.
  destruct (created_or_not this db) as [Hcreated | [m Hm]].
  - rewrite (execute_calls _ _ Hcreated). unfold calls.
    destruct (operation_cases this) as [Hq | [Hi | [Hq Hi]]].
    + destruct (query_valid_or_not this) as [Hvalid | [Hen Hno]].
      * rewrite (dispatch_query_valid _ _ Hq Hvalid). simpl.
        repeat split; auto. intros i [H | [H | []]]; discriminate.
      * rewrite (dispatch_query_invalid _ _ Hq Hen Hno). simpl.
        repeat split; auto. intros i [H | []]; discriminate.
    + rewrite (dispatch_insert _ _ Hi). simpl.
      repeat split; auto. intros q [H | [H | []]]; discriminate.
    + rewrite (dispatch_other _ _ Hq Hi). simpl.
      repeat split; auto; intros x [H | []]; discriminate.
  - unfold calls. rewrite (execute_not_created _ _ _ Hm). simpl.
    repeat split; auto; intros x [].
Qed.

(** X3. When the client cannot be created, [execute] raises the error of the
    creation, sends nothing and closes nothing, whatever the operation and
    the parameters are. *)
Theorem create_failure_sends_nothing
    (this : IExecuteFunctions) (db : Database) (msg : jsstring) :
  createClient db (clientConfig (getCredentials this)) = Failed msg ->
  calls (execute this) db = []
  /\ outcome (execute this) db = Thrown (ClientError msg).
Proof.
  intros H. unfold calls, outcome.
  now rewrite (execute_not_created _ _ _ H).
Qed.

(** X4. When the database rejects the query, or reading the rows of the
    result fails, the query branch throws the error of the client with its
    message unchanged; the one query is followed by the close and [execute]
    raises that error, returning no item. *)
Theorem query_failure_propagates
    (this : IExecuteFunctions) (db : Database) (msg : jsstring) :
  param_operation this = str "query" ->
  created this db ->
  (readOnlyEnabled this = true -> startsWithReadOnlyKeyword (param_query this)) ->
  let request :=
    {| qp_query := addLimit (param_query this) (maxResultsOf this);
       qp_format := str "JSONEachRow";
       qp_query_params := Some [] |} in
  db_query db request = Failed msg \/ db_query db request = Done (Failed msg) ->
  calls (execute this) db = [Query request; Close]
  /\ outcome (dispatch this) db = Thrown (ClientError msg)
  /\ (db_close db = Done tt ->
      outcome (execute this) db = Thrown (ClientError msg)).
Proof.
  intros Hop Hcreated Hvalid request Hfail.
  rewrite (execute_calls _ _ Hcreated), (execute_outcome _ _ Hcreated).
  unfold calls, outcome. rewrite (dispatch_query_valid _ _ Hop Hvalid).
  simpl. fold request.
  destruct Hfail as [-> | ->]; repeat split; now intros ->.
Qed.

(** X5. When the database rejects the insert, [execute] returns nothing: the
    one insert is followed by the close, and the error of the client is
    raised with its message unchanged. *)
Theorem insert_failure_propagates
    (this : IExecuteFunctions) (db : Database) (msg : jsstring) :
  param_operation this = str "insert" ->
  created this db ->
  db_insert db {| ip_table := param_table this;
                  ip_format := str "JSONEachRow";
                  ip_values := map json (getInputData this);
                  ip_query_params := Some [] |} = Failed msg ->
  calls (execute this) db =
    [insertRequest (param_table this) (map json (getInputData this)); Close]
  /\ (forall output, outcome (execute this) db <> Returned output)
  /\ (db_close db = Done tt ->
      outcome (execute this) db = Thrown (ClientError msg)).
Proof.
  intros Hop Hcreated Hfail.
  rewrite (execute_calls _ _ Hcreated), (execute_outcome _ _ Hcreated).
  unfold calls, outcome. rewrite (dispatch_insert _ _ Hop), Hfail. simpl.
  repeat split.
  - intros output. destruct (db_close db); discriminate.
  - now intros ->.
Qed.

(** A query that begins, after whitespace, with a keyword in any case of its
    letters starts with that keyword once trimmed and upper-cased. *)
Lemma keyword_prefix_accepted (ws word rest : jsstring) :
  whitespace ws ->
  In (map asciiUpper word) readOnlyKeywords ->
  startsWithReadOnlyKeyword (ws ++ word ++ rest).
Proof.
  intros Hws Hin.
  destruct (readOnlyKeywords_capitals _ Hin) as [Hcap Hne].
  assert (Hletters : letters word)
    by (eapply case_variant_letters; [reflexivity | exact Hcap]).
  assert (Hword : word <> []) by (intros ->; now apply Hne).
  destruct (trim_keeps_word ws word rest Hws Hletters Hword) as [rest' E].
  exists (map asciiUpper word), (toUpperCase rest').
  split; [exact Hin|]. rewrite E.
  exact (toUpperCase_around_word [] word rest' Hletters Hword).
Qed.

Lemma unstr_str (s : string) : unstr (str s) = s.
Proof.
  unfold unstr, str. rewrite map_map.
  rewrite (map_ext _ (fun a => a)), map_id.
  - apply string_of_list_ascii_of_string.
  - intros a. now rewrite N2Z.id, ascii_N_embedding.
Qed.

(** The decimal numeral of a number reads back as that number. *)
Lemma decimalValue_decimalNumeral (n : Z) :
  decimalValue (decimalNumeral n) = Some n.
Proof.
  unfold decimalValue, decimalNumeral. rewrite unstr_str.
  rewrite NilZero.isi.
  - simpl. now rewrite DecimalZ.of_to.
  - destruct n; simpl; try discriminate.
    intros [= H]. now apply Unsigned.to_uint_nonnil in H.
  - destruct n; simpl; try discriminate.
    intros [= H]. now apply Unsigned.to_uint_nonnil in H.
Qed.

(** X6. The read-only validation looks at the first word only: a query made
    of whitespace, then one of the keywords in any case of its letters, then
    anything at all, is sent to the database, in read-only mode too. *)
Theorem readOnly_accepts_keyword_prefix
    (this : IExecuteFunctions) (db : Database) (ws word rest : jsstring) :
  param_operation this = str "query" ->
  created this db ->
  param_query this = ws ++ word ++ rest ->
  whitespace ws ->
  In (map asciiUpper word) readOnlyKeywords ->
  startsWithReadOnlyKeyword (param_query this)
  /\ calls (execute this) db =
       [queryRequest (addLimit (param_query this) (maxResultsOf this)); Close].
Proof.
  intros Hop Hcreated HS Hws Hin.
  assert (Hkw : startsWithReadOnlyKeyword (param_query this))
    by (rewrite HS; now apply keyword_prefix_accepted).
  split; [exact Hkw|].
  rewrite (execute_calls _ _ Hcreated). unfold calls.
  now rewrite (dispatch_query_valid _ _ Hop (fun _ => Hkw)).
Qed.

(** X7. In read-only mode an empty query, or one of whitespace only, is
    stopped by the validation: nothing is sent to the database. *)
Theorem readOnly_rejects_blank_query
    (this : IExecuteFunctions) (db : Database) :
  param_operation this = str "query" ->
  readOnlyMode (param_options this) = Some true ->
  created this db ->
  whitespace (param_query this) ->
  calls (execute this) db = [Close]
  /\ outcome (dispatch this) db = Thrown readOnlyError.
Proof.
  intros Hop Hro Hcreated Hblank.
  assert (Hen : readOnlyEnabled this = true)
    by (unfold readOnlyEnabled; now rewrite Hro).
  assert (Hno : ~ startsWithReadOnlyKeyword (param_query this)).
  { intros (keyword & rest & Hin & E).
    rewrite (trim_whitespace _ Hblank) in E.
    destruct (readOnlyKeywords_capitals _ Hin) as [_ Hne].
    destruct keyword; [now apply Hne | discriminate E]. }
  rewrite (execute_calls _ _ Hcreated). unfold calls, outcome.
  now rewrite (dispatch_query_invalid _ _ Hop Hen Hno).
Qed.

(** X8. On a query of ASCII characters the read-only validation does not
    depend on the Unicode table: it lets the query through exactly when the
    query is whitespace, then one of the four keywords in any case of its
    letters, then any text. *)
Theorem readOnly_ascii_characterisation (S : jsstring) (db : Database) :
  Forall (fun c => 0 <= c < 128) S ->
  (outcome (validateReadOnly true S) db = Returned tt <->
   exists ws word rest,
     S = ws ++ word ++ rest /\ whitespace ws /\
     In (map asciiUpper word) readOnlyKeywords).
Proof.
  intros Hascii. unfold outcome. split.
  - intros Hok.
    destruct (startsWithReadOnlyKeyword_dec S) as [Hyes | Hno];
      [|rewrite (validateReadOnly_rejects _ db Hno) in Hok; discriminate].
    destruct Hyes as (keyword & upper & Hin & E).
    destruct (trim_split S) as (before & after & HS & Hbefore & _).
    assert (Hmid : Forall (fun c => 0 <= c < 128) (trim S)).
    { rewrite HS in Hascii.
      apply Forall_app in Hascii. destruct Hascii as [_ Hascii].
      apply Forall_app in Hascii. tauto. }
    rewrite (toUpperCase_ascii _ Hmid) in E.
    apply map_eq_app in E. destruct E as (word & rest & Etrim & Eword & _).
    exists before, word, (rest ++ after).
    split; [|split; [exact Hbefore | now rewrite Eword]].
    rewrite HS at 1. rewrite Etrim. now rewrite <- app_assoc.
  - intros (ws & word & rest & -> & Hws & Hin).
    now rewrite (validateReadOnly_accepts _ db
                   (keyword_prefix_accepted ws word rest Hws Hin)).
Qed.

(** X9. The test for an existing LIMIT is a substring test: when the letters
    l, i, m, i, t occur in a row anywhere in the query, in any case and
    whatever surrounds them, the query is sent as it is and no LIMIT clause
    is appended, whatever the maximum is. *)
Theorem limit_suppressed_by_word
    (this : IExecuteFunctions) (db : Database) (before word after : jsstring) :
  param_operation this = str "query" ->
  created this db ->
  (readOnlyEnabled this = true -> startsWithReadOnlyKeyword (param_query this)) ->
  param_query this = before ++ word ++ after ->
  map asciiUpper word = str "LIMIT" ->
  calls (execute this) db = [queryRequest (param_query this); Close].
Proof.
  intros Hop Hcreated Hvalid HS Hword.
  assert (Hletters : letters word).
  { apply (case_variant_letters word (str "LIMIT") Hword).
    repeat constructor; simpl; lia. }
  assert (Hne : word <> []) by (intros ->; discriminate Hword).
  assert (Hsame : addLimit (param_query this) (maxResultsOf this)
                  = param_query this).
  { apply addLimit_unchanged. right. unfold containsLimit.
    rewrite HS, (toUpperCase_around_word before word after Hletters Hne), Hword.
    now exists (toUpperCase before), (toUpperCase after). }
  rewrite (execute_calls _ _ Hcreated). unfold calls.
  now rewrite (dispatch_query_valid _ _ Hop Hvalid), Hsame.
Qed.

(** X10. With a positive maximum, the query that is sent always has LIMIT in
    it (upper-cased): either it had it already, or the clause was appended. *)
Theorem sent_query_contains_limit (this : IExecuteFunctions) (db : Database) :
  param_operation this = str "query" ->
  created this db ->
  (readOnlyEnabled this = true -> startsWithReadOnlyKeyword (param_query this)) ->
  0 < maxResultsOf this ->
  exists text,
    calls (execute this) db = [queryRequest text; Close] /\ containsLimit text.
Proof.
  intros Hop Hcreated Hvalid HN.
  exists (addLimit (param_query this) (maxResultsOf this)). split.
  - rewrite (execute_calls _ _ Hcreated). unfold calls.
    now rewrite (dispatch_query_valid _ _ Hop Hvalid).
  - apply includes_spec. now apply addLimit_contains.
Qed.

(** X11. The LIMIT injection is idempotent: applied to its own result, with
    the same maximum, it changes nothing, so clauses never pile up. *)
Theorem addLimit_idempotent (S : jsstring) (N : Z) :
  addLimit (addLimit S N) N = addLimit S N.
Proof.
  destruct (Z.lt_ge_cases 0 N) as [Hpos | Hle].
  - apply addLimit_unchanged. right.
    apply includes_spec. now apply addLimit_contains.
  - now rewrite !(addLimit_unchanged S N (or_introl Hle)).
Qed.

(** X12. For a maximum that is a safe integer, the clause appended is
    " LIMIT " followed by the decimal numeral of the maximum: read back as a
    decimal, the digits give the maximum. *)
Theorem limit_value_round_trip (S : jsstring) (N : Z) :
  0 < N -> isSafeInteger N = true -> ~ containsLimit S ->
  exists digits,
    addLimit S N = S ++ str " LIMIT " ++ digits /\
    decimalValue digits = Some N.
Proof.
  intros HN Hsafe Hno. exists (decimalNumeral N). split.
  - rewrite (addLimit_appends S N HN Hno). unfold numberToString.
    now rewrite Hsafe.
  - apply decimalValue_decimalNumeral.
Qed.

(** X13. The calls of the credential test: none when the client cannot be
    created; the probe alone, with no close after it, when the probe fails;
    the probe and then the close otherwise. It never inserts, and it never
    reads the rows of the probe. *)
Theorem credential_test_calls (credential : Credentials) (db : Database) :
  calls (clickhouseConnectionTest credential) db =
    match createClient db (clientConfig credential) with
    | Failed _ => []
    | Done _ =>
        match db_query db probe with
        | Failed _ => [Query probe]
        | Done _ => [Query probe; Close]
        end
    end.
Proof.
  unfold calls, clickhouseConnectionTest, bind, tryCatch, newClient,
    clientQuery, clientClose, ret. simpl.
  destruct (createClient db _); [|reflexivity]. simpl.
  destruct (db_query db probe); [|reflexivity]. simpl.
  destruct (db_close db); reflexivity.
Qed.

(** X14. Whatever [execute] returns is a single output; its items carry no
    binary data, and there are items only for operation query. *)
Theorem execute_output_shape
    (this : IExecuteFunctions) (db : Database)
    (output : list (list INodeExecutionData)) :
  outcome (execute this) db = Returned output ->
  exists items,
    output = [items]
    /\ Forall (fun i => binary i = None) items
    /\ (param_operation this <> str "query" -> items = []).
Proof.
  intros H.
  destruct (created_or_not this db) as [Hcreated | [m Hm]];
    [|unfold outcome in H; rewrite (execute_not_created _ _ _ Hm) in H;
      discriminate].
  rewrite (execute_outcome _ _ Hcreated) in H.
  destruct (db_close db) as [[] | m]; [|discriminate].
  unfold outcome in H.
  destruct (operation_cases this) as [Hq | [Hi | [Hq Hi]]].
  - destruct (query_valid_or_not this) as [Hvalid | [Hen Hno]].
    + rewrite (dispatch_query_valid _ _ Hq Hvalid) in H. simpl in H.
      destruct (db_query db _) as [[rows | m] | m]; try discriminate.
      injection H as <-. eexists. split; [reflexivity|]. split.
      * apply Forall_forall. intros i Hin.
        apply in_map_iff in Hin. now destruct Hin as (row & <- & _).
      * intros Hne. contradiction.
    + rewrite (dispatch_query_invalid _ _ Hq Hen Hno) in H. discriminate.
  - rewrite (dispatch_insert _ _ Hi) in H. simpl in H.
    destruct (db_insert db _); [|discriminate].
    injection H as <-. exists []. repeat split; constructor.
  - rewrite (dispatch_other _ _ Hq Hi) in H. simpl in H.
    injection H as <-. exists []. repeat split; constructor.
Qed.

(** X15. The insert operation depends on the credentials, the table name and
    the JSON payloads of the items only: the query text, the options
    (read-only mode among them) and the binary data of the items change
    neither the calls nor the result. *)
Theorem insert_ignores_other_parameters
    (this this' : IExecuteFunctions) (db : Database) :
  param_operation this = str "insert" ->
  param_operation this' = str "insert" ->
  getCredentials this = getCredentials this' ->
  param_table this = param_table this' ->
  map json (getInputData this) = map json (getInputData this') ->
  execute this db = execute this' db.
Proof.
  intros Hop Hop' Hc Ht Hj. apply (execute_same_dispatch _ _ _ Hc).
  now rewrite (dispatch_insert _ _ Hop), (dispatch_insert _ _ Hop'), Ht, Hj.
Qed.

(** X16. The query operation runs once, for the parameters of the first
    item: the input items, the table name and the schema description change
    neither the calls nor the result. *)
Theorem query_ignores_items_and_table
    (this this' : IExecuteFunctions) (db : Database) :
  param_operation this = str "query" ->
  param_operation this' = str "query" ->
  getCredentials this = getCredentials this' ->
  param_query this = param_query this' ->
  readOnlyEnabled this = readOnlyEnabled this' ->
  maxResultsOf this = maxResultsOf this' ->
  execute this db = execute this' db.
Proof.
  intros Hop Hop' Hc Hq Hr Hm. apply (execute_same_dispatch _ _ _ Hc).
  now rewrite (dispatch_query _ _ Hop), (dispatch_query _ _ Hop'), Hq, Hr, Hm.
Qed.

(** X17. An option that is absent is treated exactly as the default the
    description declares for it: filling in the defaults changes neither the
    calls nor the result of [execute]. *)
Theorem absent_options_are_defaults (this : IExecuteFunctions) (db : Database) :
  execute (setOptions this (withDefaults (param_options this))) db
  = execute this db.
Proof.
  apply execute_same_dispatch; [reflexivity|].
  set (this' := setOptions this (withDefaults (param_options this))).
  assert (Hr : readOnlyEnabled this' = readOnlyEnabled this)
    by (unfold readOnlyEnabled; simpl;
        now destruct (readOnlyMode (param_options this))).
  assert (Hm : maxResultsOf this' = maxResultsOf this)
    by (unfold maxResultsOf; simpl;
        now destruct (maxResults (param_options this))).
  destruct (operation_cases this) as [Hq | [Hi | [Hq Hi]]].
  - rewrite (dispatch_query this' db Hq), (dispatch_query this db Hq).
    now rewrite Hr, Hm.
  - now rewrite (dispatch_insert this' db Hi), (dispatch_insert this db Hi).
  - now rewrite (dispatch_other this' db Hq Hi), (dispatch_other this db Hq Hi).
Qed.

(** X18. The dispatch does nothing at all (no call, no item, no error)
    exactly for the operation values that the description does not offer. *)
Theorem noop_exactly_for_undescribed_operations
    (this : IExecuteFunctions) (db : Database) :
  calls (dispatch this) db = [] /\ outcome (dispatch this) db = Returned []
  <-> ~ In (param_operation this) operationValues.
Proof.
  unfold calls, outcome.
  destruct (operation_cases this) as [Hq | [Hi | [Hq Hi]]].
  - split.
    + destruct (query_valid_or_not this) as [Hvalid | [Hen Hno]].
      * rewrite (dispatch_query_valid _ _ Hq Hvalid). now intros [[=] _].
      * rewrite (dispatch_query_invalid _ _ Hq Hen Hno). now intros [_ [=]].
    + intros Hnot. exfalso. apply Hnot. rewrite Hq. simpl. tauto.
  - split.
    + rewrite (dispatch_insert _ _ Hi). now intros [[=] _].
    + intros Hnot. exfalso. apply Hnot. rewrite Hi. simpl. tauto.
  - rewrite (dispatch_other _ _ Hq Hi). split; [|now split].
    intros _ [H | [H | []]]; [now apply Hq | now apply Hi].
Qed.

(** X19. Credentials that pass the test run cleanly: when, against the same
    answers of the database, the credential test reports OK, [execute] with
    these credentials creates its client and closes it without error, so
    that it returns exactly the items of its branch or raises exactly the
    error of its branch. *)
Theorem tested_credentials_execute
    (this : IExecuteFunctions) (db : Database)
    (result : INodeCredentialTestResult) :
  outcome (clickhouseConnectionTest (getCredentials this)) db = Returned result ->
  status result = OK ->
  calls (execute this) db = calls (dispatch this) db ++ [Close]
  /\ outcome (execute this) db =
       match outcome (dispatch this) db with
       | Returned returnItems => Returned [returnItems]
       | Thrown e => Thrown e
       end.
Proof.
  intros Htest Hok.
  assert (H : created this db /\ db_close db = Done tt).
  { revert Htest. unfold created, outcome, clickhouseConnectionTest, bind,
      tryCatch, newClient, clientQuery, clientClose, ret. simpl.
    destruct (createClient db _) as [[] | m]; simpl;
      [|intros [= <-]; discriminate Hok].
    destruct (db_query db probe) as [rs | m]; simpl;
      [|intros [= <-]; discriminate Hok].
    destruct (db_close db) as [[] | m]; simpl;
      [now split | intros [= <-]; discriminate Hok]. }
  destruct H as [Hcreated Hclose].
  rewrite (execute_calls _ _ Hcreated), (execute_outcome _ _ Hcreated), Hclose.
  now split.
Qed.

(** ** The LIMIT injection, in words that do not depend on the built-ins *)

(** "S contains the substring LIMIT in any case": five characters in a row
    of S are the letters l, i, m, i, t, each of them small or capital. *)
Definition limitInAnyCase (S : jsstring) : Prop :=
  exists before word after,
    S = before ++ word ++ after /\ map asciiUpper word = str "LIMIT".

Definition asciiText (S : jsstring) : Prop := Forall (fun c => 0 <= c < 128) S.

(** "digits is N written in decimal": the digits read back as N, and the
    first of them is not a zero. *)
Definition writtenInDecimal (digits : jsstring) (N : Z) : Prop :=
  decimalValue digits = Some N /\ forall rest, digits <> 48 :: rest.

Lemma limitInAnyCase_containsLimit (S : jsstring) :
  limitInAnyCase S -> containsLimit S.
Proof.
  intros (before & word & after & -> & Hword).
  assert (Hletters : letters word).
  { apply (case_variant_letters word (str "LIMIT") Hword).
    repeat constructor; simpl; lia. }
  assert (Hne : word <> []) by (intros ->; discriminate Hword).
  unfold containsLimit.
  rewrite (toUpperCase_around_word before word after Hletters Hne), Hword.
  now exists (toUpperCase before), (toUpperCase after).
Qed.

Lemma containsLimit_ascii (S : jsstring) :
  asciiText S -> containsLimit S -> limitInAnyCase S.
Proof.
  intros Hascii (upBefore & upAfter & E).
  rewrite (toUpperCase_ascii S Hascii) in E.
  apply map_eq_app in E. destruct E as (before & tail & -> & _ & E).
  apply map_eq_app in E. destruct E as (word & after & -> & Hword & _).
  now exists before, word, after.
Qed.

Lemma nzhead_not_D0 (d d' : Decimal.uint) : Decimal.nzhead d <> Decimal.D0 d'.
Proof. induction d; simpl; try discriminate; exact IHd. Qed.

Lemma to_uint_no_leading_zero (p : positive) (d : Decimal.uint) :
  Pos.to_uint p <> Decimal.D0 d.
Proof.
  intros E.
  pose proof (DecimalPos.Unsigned.to_of (Pos.to_uint p)) as H.
  rewrite DecimalPos.Unsigned.of_to in H. simpl in H. rewrite E in H.
  unfold Decimal.unorm in H. simpl in H.
  destruct (Decimal.nzhead d) eqn:En; try discriminate H.
  - injection H as ->. now apply (DecimalPos.Unsigned.to_uint_nonzero p).
  - now apply (nzhead_not_D0 d u).
Qed.

Lemma decimalNumeral_no_leading_zero (N : Z) (rest : jsstring) :
  0 < N -> decimalNumeral N <> 48 :: rest.
Proof.
  destruct N as [|p|p]; try lia. intros _.
  unfold decimalNumeral. simpl Z.to_int. simpl NilZero.string_of_int.
  destruct (Pos.to_uint p) eqn:E; simpl; try discriminate.
  - now apply DecimalPos.Unsigned.to_uint_nonnil in E.
  - now apply to_uint_no_leading_zero in E.
Qed.

(** C2. The query text sent to the database is S followed by " LIMIT " and N
    when N > 0 and the upper-cased S has no substring LIMIT, and is S itself
    in every other case. In words that do not depend on the upper-casing and
    on the printing of numbers: a text with the letters l, i, m, i, t in a
    row, in any case, is sent as it is; an ASCII text without them gets,
    for a safe integer N > 0, " LIMIT " and N written in decimal. *)
Theorem limit_injection (this : IExecuteFunctions) (db : Database) :
  param_operation this = str "query" ->
  created this db ->
  (readOnlyEnabled this = true -> startsWithReadOnlyKeyword (param_query this)) ->
  let S := param_query this in
  let N := maxResultsOf this in
  exists text,
    calls (execute this) db = [queryRequest text; Close] /\
    (0 < N -> ~ containsLimit S ->
       text = S ++ str " LIMIT " ++ numberToString N) /\
    (N <= 0 \/ containsLimit S -> text = S) /\
    (limitInAnyCase S -> text = S) /\
    (0 < N -> isSafeInteger N = true -> asciiText S -> ~ limitInAnyCase S ->
       exists digits,
         text = S ++ str " LIMIT " ++ digits /\ writtenInDecimal digits N).
Proof.
  intros Hop Hcreated Hvalid S N.
  exists (addLimit S N). repeat split.
  - rewrite (execute_calls _ _ Hcreated).
    unfold calls. rewrite (dispatch_query _ _ Hop).
    destruct (readOnlyEnabled this) eqn:Hen.
    + now rewrite (validateReadOnly_accepts _ db (Hvalid eq_refl)).
    + reflexivity.
  - apply addLimit_appends.
  - apply addLimit_unchanged.
  - intros Hany. apply addLimit_unchanged. right.
    now apply limitInAnyCase_containsLimit.
  - intros HN Hsafe Hascii Hnone. exists (decimalNumeral N). split; [|split].
    + rewrite (addLimit_appends S N HN).
      * unfold numberToString. now rewrite Hsafe.
      * intros Hc. apply Hnone. now apply containsLimit_ascii.
    + apply decimalValue_decimalNumeral.
    + intros rest. now apply decimalNumeral_no_leading_zero.
Qed.

End ClickHouseNode.

(** ** The operations on concrete inputs

    The theorems applied to the sample data, with the excerpt
    [sampleUppercase] as the upper-case table. *)

Lemma readOnly_validation_witness :
  let this := queryNode "  select * from t" (Some true) (Some 10) in
  let db := answering [rowId 1] in
  startsWithReadOnlyKeyword sampleUppercase (param_query this) /\
  outcome (execute sampleUppercase exponentSample this) db <> Thrown readOnlyError /\
  exists text,
    calls (execute sampleUppercase exponentSample this) db = [queryRequest text; Close] /\
    (text = param_query this \/
     text = param_query this ++ str " LIMIT " ++ numberToString exponentSample 10).
Proof.
  intros this db.
  assert (Hkw : startsWithReadOnlyKeyword sampleUppercase (param_query this)).
  { exists (str "SELECT"), (str " * FROM T").
    split; [simpl; tauto | reflexivity]. }
  destruct (readOnly_validation sampleUppercase exponentSample this db
              eq_refl eq_refl eq_refl) as (_ & Hexec & _ & Hsent).
  split; [exact Hkw|]. split.
  - intros Hthrown. exact (proj1 (Hexec eq_refl) Hthrown Hkw).
  - exact (Hsent Hkw).
Defined.

Lemma limit_injection_witness :
  calls (execute sampleUppercase exponentSample
           (queryNode "select * from t" None (Some 25)))
        (answering [])
  = [queryRequest (str "select * from t LIMIT 25"); Close]
  /\ calls (execute sampleUppercase exponentSample
              (queryNode "select 1 limit 5" None (Some 25)))
           (answering [])
     = [queryRequest (str "select 1 limit 5"); Close].
Proof.
  split.
  - destruct (limit_injection sampleUppercase exponentSample
                (queryNode "select * from t" None (Some 25)) (answering [])
                eq_refl eq_refl)
      as (text & Hcalls & Happend & _); [discriminate|].
    rewrite Hcalls, Happend; [reflexivity | reflexivity |].
    intros Hlimit. apply includes_spec in Hlimit. discriminate Hlimit.
  - destruct (limit_injection sampleUppercase exponentSample
                (queryNode "select 1 limit 5" None (Some 25)) (answering [])
                eq_refl eq_refl)
      as (text & Hcalls & _ & _ & Hany & _); [discriminate|].
    rewrite Hcalls, Hany; [reflexivity|].
    now exists (str "select 1 "), (str "limit"), (str " 5").
Defined.

(** Beyond the safe integers the clause carries what JavaScript prints for
    the number: for 10^21 that is the exponent notation. *)
Example limit_beyond_safe_integers :
  addLimit sampleUppercase exponentSample (str "select 1") (10 ^ 21)
  = str "select 1 LIMIT 1e+21".
Proof. reflexivity. Qed.

Lemma connection_closed_once_witness :
  let this := queryNode "drop table t" (Some true) None in
  (exists before,
     calls (execute sampleUppercase exponentSample this) (unreachable (str "refused"))
     = before ++ [Close] /\
     filter isClose before = [])
  /\ List.length
       (filter isClose
          (calls (execute sampleUppercase exponentSample this) (unreachable (str "refused"))))
     = 1%nat.
Proof.
  intros this.
  apply (connection_closed_once sampleUppercase exponentSample this
           (unreachable (str "refused"))).
  reflexivity.
Defined.

Lemma insert_single_bulk_call_witness :
  let this := insertNode "product" productItems in
  calls (execute sampleUppercase exponentSample this) (answering [])
  = [insertRequest (str "product") [product 1 "a"; product 2 "b"]; Close]
  /\ outcome (execute sampleUppercase exponentSample this) (answering []) = Returned [[]].
Proof.
  intros this.
  destruct (insert_single_bulk_call sampleUppercase exponentSample this (answering [])
              eq_refl eq_refl) as (Hcalls & _ & Hout).
  split; [exact Hcalls | exact (Hout eq_refl eq_refl)].
Defined.

Lemma insert_returns_no_items_witness :
  let this := insertNode "product" productItems in
  outcome (execute sampleUppercase exponentSample this) (answering []) = Returned [[]]
  /\ (outcome (execute sampleUppercase exponentSample this) (answering [])
      = Returned (prepareOutputData (getInputData this))
      <-> getInputData this = []).
Proof.
  intros this.
  apply (insert_returns_no_items sampleUppercase exponentSample this (answering []));
    reflexivity.
Defined.

(** C5, as stated, fails: an insert of two items returns no item, not the
    two input items. *)
Lemma insert_does_not_echo :
  let this := insertNode "product" productItems in
  outcome (execute sampleUppercase exponentSample this) (answering [])
  <> Returned (prepareOutputData (getInputData this)).
Proof.
  intros this. vm_compute. discriminate.
Qed.

Lemma query_rows_to_items_witness :
  let this := queryNode "SELECT id FROM product" None None in
  exists items,
    outcome (execute sampleUppercase exponentSample this) (answering [rowId 1; rowId 2])
    = Returned [items] /\
    map json items = [rowId 1; rowId 2] /\
    List.length items = 2%nat.
Proof.
  intros this.
  destruct (query_rows_to_items sampleUppercase exponentSample this
              (answering [rowId 1; rowId 2]) [rowId 1; rowId 2]
              eq_refl eq_refl)
    as (items & _ & Hjson & Hlen & Hout); [discriminate | reflexivity |].
  exists items. split; [exact (Hout eq_refl) | split; assumption].
Defined.

(** C7, as stated, fails twice: with the client created and the probe
    answered, a close that fails gives status Error; and an error with an
    empty message gives status Error with an empty message. *)
Lemma credential_test_error_cases :
  let db := closeFails [] (str "close failed") in
  createClient db (clientConfig sampleCredentials) = Done tt /\
  db_query db probe = Done (Done []) /\
  outcome (clickhouseConnectionTest sampleCredentials) db
  = Returned {| status := Error; message := str "close failed" |} /\
  outcome (clickhouseConnectionTest sampleCredentials) (unreachable [])
  = Returned {| status := Error; message := [] |}.
Proof.
  repeat split.
Qed.

Lemma credential_test_close_witness :
  calls (clickhouseConnectionTest sampleCredentials)
        (closeFails [] (str "close failed"))
  = [Query probe; Close]
  /\ outcome (clickhouseConnectionTest sampleCredentials)
             (closeFails [] (str "close failed"))
     = Returned {| status := Error; message := str "close failed" |}.
Proof.
  apply (credential_test_close sampleCredentials
           (closeFails [] (str "close failed")) (Done []));
    reflexivity.
Defined.

(** C8, as stated, fails twice: when the probe fails the connection is not
    closed at all; and an error of the close turns the status from OK into
    Error. *)
Lemma credential_test_close_cases :
  calls (clickhouseConnectionTest sampleCredentials)
        (unreachable (str "connect ECONNREFUSED"))
  = [Query probe]
  /\ outcome (clickhouseConnectionTest sampleCredentials) (answering [])
     = Returned {| status := OK; message := str "Connection successful!" |}
  /\ outcome (clickhouseConnectionTest sampleCredentials)
             (closeFails [] (str "close failed"))
     = Returned {| status := Error; message := str "close failed" |}.
Proof.
  repeat split.
Qed.

Lemma unknown_operation_noop_witness :
  let this := otherNode "delete" in
  calls (execute sampleUppercase exponentSample this) (answering []) = [Close]
  /\ outcome (execute sampleUppercase exponentSample this) (answering []) = Returned [[]].
Proof.
  intros this.
  destruct (unknown_operation_noop sampleUppercase exponentSample this (answering []))
    as (Hcalls & _ & _ & Hout); try reflexivity.
  - intros H. vm_compute in H. discriminate H.
  - intros H. vm_compute in H. discriminate H.
  - split; [exact Hcalls | exact (Hout eq_refl)].
Defined.

Lemma close_error_replaces_execution_error_witness :
  let this := queryNode "select 1" None None in
  let db := unreachableCloseFails (str "refused") (str "close failed") in
  outcome (dispatch sampleUppercase exponentSample this) db = Thrown (ClientError (str "refused"))
  /\ outcome (execute sampleUppercase exponentSample this) db
     = Thrown (ClientError (str "close failed")).
Proof.
  intros this db. split; [reflexivity|].
  apply (close_error_replaces_execution_error sampleUppercase exponentSample this db
           (ClientError (str "refused")) (str "close failed"));
    reflexivity.
Defined.

(** ** The further properties on concrete inputs *)

Lemma validation_error_only_in_read_only_query_witness :
  let this := queryNode "drop table t" (Some true) None in
  readOnlyEnabled this = true
  /\ calls (execute sampleUppercase exponentSample this) (answering []) = [Close].
Proof.
  intros this.
  destruct (validation_error_only_in_read_only_query sampleUppercase exponentSample this
              (answering [])
              (str "Only SELECT, SHOW, and DESCRIBE queries are allowed in read-only mode")
              eq_refl) as (_ & Hen & _ & _ & Hcalls).
  split; assumption.
Defined.

Lemma create_failure_sends_nothing_witness :
  let this := queryNode "select 1" None None in
  calls (execute sampleUppercase exponentSample this) (noClient (str "Invalid URL")) = []
  /\ outcome (execute sampleUppercase exponentSample this) (noClient (str "Invalid URL"))
     = Thrown (ClientError (str "Invalid URL")).
Proof.
  intros this.
  apply (create_failure_sends_nothing sampleUppercase exponentSample this
           (noClient (str "Invalid URL")) (str "Invalid URL")).
  reflexivity.
Defined.

Lemma query_failure_propagates_witness :
  let this := queryNode "select 1" None None in
  calls (execute sampleUppercase exponentSample this) (unreachable (str "refused"))
  = [queryRequest (str "select 1"); Close]
  /\ outcome (execute sampleUppercase exponentSample this) (unreachable (str "refused"))
     = Thrown (ClientError (str "refused")).
Proof.
  intros this.
  destruct (query_failure_propagates sampleUppercase exponentSample this
              (unreachable (str "refused")) (str "refused") eq_refl eq_refl)
    as (Hcalls & _ & Hout).
  - discriminate.
  - left. reflexivity.
  - split; [exact Hcalls | exact (Hout eq_refl)].
Defined.

Lemma insert_failure_propagates_witness :
  let this := insertNode "product" productItems in
  calls (execute sampleUppercase exponentSample this) (unreachable (str "refused"))
  = [insertRequest (str "product") [product 1 "a"; product 2 "b"]; Close]
  /\ outcome (execute sampleUppercase exponentSample this) (unreachable (str "refused"))
     = Thrown (ClientError (str "refused")).
Proof.
  intros this.
  destruct (insert_failure_propagates sampleUppercase exponentSample this
              (unreachable (str "refused")) (str "refused")
              eq_refl eq_refl eq_refl) as (Hcalls & _ & Hout).
  split; [exact Hcalls | exact (Hout eq_refl)].
Defined.

Lemma readOnly_accepts_keyword_prefix_witness :
  let this := queryNode "  Select 1; DROP TABLE t" (Some true) None in
  calls (execute sampleUppercase exponentSample this) (answering [])
  = [queryRequest (str "  Select 1; DROP TABLE t"); Close].
Proof.
  intros this.
  refine (proj2 (readOnly_accepts_keyword_prefix sampleUppercase exponentSample this
                   (answering []) (str "  ") (str "Select")
                   (str " 1; DROP TABLE t") eq_refl eq_refl eq_refl _ _)).
  - repeat constructor.
  - simpl. left. reflexivity.
Defined.

Lemma readOnly_rejects_blank_query_witness :
  let this := queryNode "   " (Some true) None in
  calls (execute sampleUppercase exponentSample this) (answering []) = [Close]
  /\ outcome (dispatch sampleUppercase exponentSample this) (answering [])
     = Thrown readOnlyError.
Proof.
  intros this.
  apply (readOnly_rejects_blank_query sampleUppercase exponentSample this (answering []));
    try reflexivity.
  repeat constructor.
Defined.

Lemma readOnly_ascii_characterisation_witness :
  outcome (validateReadOnly sampleUppercase true (str " show tables"))
          (answering [])
  = Returned tt.
Proof.
  apply (readOnly_ascii_characterisation sampleUppercase
           (str " show tables") (answering [])).
  - repeat constructor; simpl; lia.
  - exists (str " "), (str "show"), (str " tables").
    split; [reflexivity|]. split; [repeat constructor|].
    simpl. right. left. reflexivity.
Defined.

Lemma limit_suppressed_by_word_witness :
  let this := queryNode "select rate_limits from t" None (Some 10) in
  calls (execute sampleUppercase exponentSample this) (answering [])
  = [queryRequest (str "select rate_limits from t"); Close].
Proof.
  intros this.
  apply (limit_suppressed_by_word sampleUppercase exponentSample this (answering [])
           (str "select rate_") (str "limit") (str "s from t"));
    try reflexivity.
  discriminate.
Defined.

Lemma sent_query_contains_limit_witness :
  let this := queryNode "select 1" None (Some 5) in
  exists text,
    calls (execute sampleUppercase exponentSample this) (answering [])
    = [queryRequest text; Close]
    /\ containsLimit sampleUppercase text.
Proof.
  intros this.
  apply (sent_query_contains_limit sampleUppercase exponentSample this (answering []));
    try reflexivity.
  discriminate.
Defined.

Lemma limit_value_round_trip_witness :
  exists digits,
    addLimit sampleUppercase exponentSample (str "select 1") 25
    = str "select 1" ++ str " LIMIT " ++ digits
    /\ decimalValue digits = Some 25.
Proof.
  apply (limit_value_round_trip sampleUppercase exponentSample
           (str "select 1") 25).
  - lia.
  - reflexivity.
  - intros H. apply includes_spec in H. discriminate H.
Defined.

Lemma execute_output_shape_witness :
  let this := queryNode "select 1" None None in
  exists items,
    [[item (rowId 1)]] = [items]
    /\ Forall (fun i => binary i = None) items
    /\ (param_operation this <> str "query" -> items = []).
Proof.
  intros this.
  apply (execute_output_shape sampleUppercase exponentSample this (answering [rowId 1])).
  reflexivity.
Defined.

Lemma insert_ignores_other_parameters_witness :
  let this := insertNode "product" productItems in
  let this' :=
    setOptions this {| schemaDescription := None;
                       readOnlyMode := Some true;
                       maxResults := Some 5 |} in
  execute sampleUppercase exponentSample this (answering [])
  = execute sampleUppercase exponentSample this' (answering []).
Proof.
  intros this this'.
  apply (insert_ignores_other_parameters sampleUppercase exponentSample this this'
           (answering []));
    reflexivity.
Defined.

Lemma query_ignores_items_and_table_witness :
  let this := queryNode "select 1" None None in
  let this' :=
    {| getCredentials := sampleCredentials;
       param_operation := str "query";
       param_query := str "select 1";
       param_table := str "product";
       param_options := {| schemaDescription := Some (str "users (id, name)");
                           readOnlyMode := Some false;
                           maxResults := Some 0 |};
       getInputData := productItems |} in
  execute sampleUppercase exponentSample this (answering [rowId 1])
  = execute sampleUppercase exponentSample this' (answering [rowId 1]).
Proof.
  intros this this'.
  apply (query_ignores_items_and_table sampleUppercase exponentSample this this'
           (answering [rowId 1]));
    reflexivity.
Defined.

Lemma tested_credentials_execute_witness :
  let this := queryNode "select 1" None None in
  outcome (execute sampleUppercase exponentSample this) (answering [rowId 1])
  = match outcome (dispatch sampleUppercase exponentSample this) (answering [rowId 1]) with
    | Returned returnItems => Returned [returnItems]
    | Thrown e => Thrown e
    end.
Proof.
  intros this.
  refine (proj2 (tested_credentials_execute sampleUppercase exponentSample this
                   (answering [rowId 1])
                   {| status := OK; message := str "Connection successful!" |}
                   eq_refl eq_refl)).
Defined.
